(** * JSChain: the chain-integrity engine of [app.js]

    A shallow embedding of the block model, the hasher, the two validators,
    the replacement policy and the HTTP handlers of [app.js], followed by the
    properties of the specification that are stated about them. *)

From Stdlib Require Import ZArith List String Ascii Bool Lia.
From Stdlib Require Import DecimalString DecimalZ DecimalN DecimalPos.
Import ListNotations.

Local Open Scope string_scope.
Local Open Scope Z_scope.

(** ** The digest of the [crypto-js] package

    [CryptoJS.SHA512(message).toString()] encodes the message in UTF-8, runs
    SHA-512 (FIPS 180-4) over the bytes and prints the eight 64-bit words of
    the result in lower-case hexadecimal. A [string] stands for the UTF-8
    bytes of a JavaScript string. *)

Module CryptoJS.

Definition w64 (x : Z) : Z := Z.land x 0xffffffffffffffff.

Definition add64 (x y : Z) : Z := w64 (x + y).

Definition rotr (n x : Z) : Z :=
  Z.lor (Z.shiftr x n) (w64 (Z.shiftl x (64 - n))).

Definition Ch (x y z : Z) : Z :=
  Z.lxor (Z.land x y) (Z.land (Z.lxor x 0xffffffffffffffff) z).

Definition Maj (x y z : Z) : Z :=
  Z.lxor (Z.lxor (Z.land x y) (Z.land x z)) (Z.land y z).

Definition Sigma0 (x : Z) : Z := Z.lxor (Z.lxor (rotr 28 x) (rotr 34 x)) (rotr 39 x).
Definition Sigma1 (x : Z) : Z := Z.lxor (Z.lxor (rotr 14 x) (rotr 18 x)) (rotr 41 x).
Definition sigma0 (x : Z) : Z := Z.lxor (Z.lxor (rotr 1 x) (rotr 8 x)) (Z.shiftr x 7).
Definition sigma1 (x : Z) : Z := Z.lxor (Z.lxor (rotr 19 x) (rotr 61 x)) (Z.shiftr x 6).

Definition K : list Z :=
  [0x428a2f98d728ae22; 0x7137449123ef65cd; 0xb5c0fbcfec4d3b2f; 0xe9b5dba58189dbbc;
   0x3956c25bf348b538; 0x59f111f1b605d019; 0x923f82a4af194f9b; 0xab1c5ed5da6d8118;
   0xd807aa98a3030242; 0x12835b0145706fbe; 0x243185be4ee4b28c; 0x550c7dc3d5ffb4e2;
   0x72be5d74f27b896f; 0x80deb1fe3b1696b1; 0x9bdc06a725c71235; 0xc19bf174cf692694;
   0xe49b69c19ef14ad2; 0xefbe4786384f25e3; 0x0fc19dc68b8cd5b5; 0x240ca1cc77ac9c65;
   0x2de92c6f592b0275; 0x4a7484aa6ea6e483; 0x5cb0a9dcbd41fbd4; 0x76f988da831153b5;
   0x983e5152ee66dfab; 0xa831c66d2db43210; 0xb00327c898fb213f; 0xbf597fc7beef0ee4;
   0xc6e00bf33da88fc2; 0xd5a79147930aa725; 0x06ca6351e003826f; 0x142929670a0e6e70;
   0x27b70a8546d22ffc; 0x2e1b21385c26c926; 0x4d2c6dfc5ac42aed; 0x53380d139d95b3df;
   0x650a73548baf63de; 0x766a0abb3c77b2a8; 0x81c2c92e47edaee6; 0x92722c851482353b;
   0xa2bfe8a14cf10364; 0xa81a664bbc423001; 0xc24b8b70d0f89791; 0xc76c51a30654be30;
   0xd192e819d6ef5218; 0xd69906245565a910; 0xf40e35855771202a; 0x106aa07032bbd1b8;
   0x19a4c116b8d2d0c8; 0x1e376c085141ab53; 0x2748774cdf8eeb99; 0x34b0bcb5e19b48a8;
   0x391c0cb3c5c95a63; 0x4ed8aa4ae3418acb; 0x5b9cca4f7763e373; 0x682e6ff3d6b2b8a3;
   0x748f82ee5defb2fc; 0x78a5636f43172f60; 0x84c87814a1f0ab72; 0x8cc702081a6439ec;
   0x90befffa23631e28; 0xa4506cebde82bde9; 0xbef9a3f7b2c67915; 0xc67178f2e372532b;
   0xca273eceea26619c; 0xd186b8c721c0c207; 0xeada7dd6cde0eb1e; 0xf57d4f7fee6ed178;
   0x06f067aa72176fba; 0x0a637dc5a2c898a6; 0x113f9804bef90dae; 0x1b710b35131c471b;
   0x28db77f523047d84; 0x32caab7b40c72493; 0x3c9ebe0a15c9bebc; 0x431d67c49c100d4c;
   0x4cc5d4becb3e42b6; 0x597f299cfc657e2a; 0x5fcb6fab3ad6faec; 0x6c44198c4a475817].

Definition H0 : list Z :=
  [0x6a09e667f3bcc908; 0xbb67ae8584caa73b; 0x3c6ef372fe94f82b; 0xa54ff53a5f1d36f1;
   0x510e527fade682d1; 0x9b05688c2b3e6c1f; 0x1f83d9abfb41bd6b; 0x5be0cd19137e2179].

(** Padding: the byte 0x80, zero bytes up to 112 modulo 128, and the bit
    length of the message as a 128-bit big-endian number. *)

Fixpoint be_bytes (n : nat) (x : Z) : list Z :=
  match n with
  | O => []
  | S n' => be_bytes n' (Z.shiftr x 8) ++ [Z.land x 0xff]
  end.

Definition bytes_of_string (s : string) : list Z :=
  map (fun c => Z.of_nat (nat_of_ascii c)) (list_ascii_of_string s).

Definition pad (msg : list Z) : list Z :=
  let len := Z.of_nat (List.length msg) in
  let zeros := Z.to_nat ((111 - len) mod 128) in
  msg ++ [0x80] ++ repeat 0 zeros ++ be_bytes 16 (8 * len).

Definition be_word (bs : list Z) : Z :=
  fold_left (fun acc b => Z.lor (Z.shiftl acc 8) b) bs 0.

(** [chunks size n l] cuts the first [n] pieces of [size] elements off [l]. *)
Fixpoint chunks {A} (size n : nat) (l : list A) : list (list A) :=
  match n with
  | O => []
  | S n' => firstn size l :: chunks size n' (skipn size l)
  end.

(** The message schedule: the sixteen words of the block, then
    W[t] = sigma1 W[t-2] + W[t-7] + sigma0 W[t-15] + W[t-16]. *)
Fixpoint schedule (n : nat) (w : list Z) : list Z :=
  match n with
  | O => w
  | S n' =>
      let t := List.length w in
      let at_ k := nth (t - k) w 0 in
      schedule n'
        (w ++ [add64 (add64 (sigma1 (at_ 2%nat)) (at_ 7%nat))
                     (add64 (sigma0 (at_ 15%nat)) (at_ 16%nat))])
  end.

Record regs := Regs { ra : Z; rb : Z; rc : Z; rd : Z; re : Z; rf : Z; rg : Z; rh : Z }.

Definition round (r : regs) (kw : Z * Z) : regs :=
  let (k, w) := kw in
  let t1 := add64 (add64 (add64 (rh r) (Sigma1 (re r))) (Ch (re r) (rf r) (rg r)))
                  (add64 k w) in
  let t2 := add64 (Sigma0 (ra r)) (Maj (ra r) (rb r) (rc r)) in
  Regs (add64 t1 t2) (ra r) (rb r) (rc r) (add64 (rd r) t1) (re r) (rf r) (rg r).

Definition compress (h : regs) (block : list Z) : regs :=
  let w := schedule 64 (map be_word (chunks 8 16 block)) in
  let r := fold_left round (combine K w) h in
  Regs (add64 (ra h) (ra r)) (add64 (rb h) (rb r)) (add64 (rc h) (rc r))
       (add64 (rd h) (rd r)) (add64 (re h) (re r)) (add64 (rf h) (rf r))
       (add64 (rg h) (rg r)) (add64 (rh h) (rh r)).

Definition initial : regs :=
  Regs (nth 0 H0 0) (nth 1 H0 0) (nth 2 H0 0) (nth 3 H0 0)
       (nth 4 H0 0) (nth 5 H0 0) (nth 6 H0 0) (nth 7 H0 0).

Definition hex_digit (x : Z) : ascii :=
  nth (Z.to_nat x) (list_ascii_of_string "0123456789abcdef") "0"%char.

Fixpoint hex (n : nat) (x : Z) : string :=
  match n with
  | O => ""
  | S n' => hex n' (Z.shiftr x 4) ++ String (hex_digit (Z.land x 0xf)) ""
  end.

Definition digest (msg : list Z) : regs :=
  let p := pad msg in
  fold_left compress (chunks 128 (List.length p / 128) p) initial.

Definition SHA512 (message : string) : string :=
  let r := digest (bytes_of_string message) in
  hex 16 (ra r) ++ hex 16 (rb r) ++ hex 16 (rc r) ++ hex 16 (rd r) ++
  hex 16 (re r) ++ hex 16 (rf r) ++ hex 16 (rg r) ++ hex 16 (rh r).

End CryptoJS.

Arguments CryptoJS.SHA512 : simpl never.

(** ** JavaScript values

    Numbers. The numbers that the program computes with are block indices
    (integers), the genesis timestamp (an integer) and clock readings in
    milliseconds divided by 1000. All of them are decimal fractions with at
    most three fractional digits; a [Num] holds such a number as its count
    of thousandths. On these values [Number.prototype.toString] prints the
    plain decimal expansion without trailing zeros (the double nearest to a
    decimal of at most fifteen significant digits prints back as it). *)

Record Num : Type := Thousandths { thousandths : Z }.

Definition Num_of_Z (z : Z) : Num := Thousandths (1000 * z).

Definition digits (n : Z) : string := NilZero.string_of_uint (N.to_uint (Z.to_N n)).

Definition digit (d : Z) : ascii := ascii_of_nat (48 + Z.to_nat d).

(** The fractional part [r / 1000], for [0 <= r < 1000]. *)
Definition fraction (r : Z) : string :=
  let d1 := String (digit (r / 100)) "" in
  let d2 := String (digit ((r / 10) mod 10)) "" in
  let d3 := String (digit (r mod 10)) "" in
  if r =? 0 then ""
  else if negb (r mod 10 =? 0) then "." ++ d1 ++ d2 ++ d3
  else if negb ((r / 10) mod 10 =? 0) then "." ++ d1 ++ d2
  else "." ++ d1.

Definition Num_toString (n : Num) : string :=
  let m := Z.abs (thousandths n) in
  (if thousandths n <? 0 then "-" else "") ++ digits (m / 1000) ++ fraction (m mod 1000).

(** Values. A payload is whatever [bodyParser.json()] hands over: a JSON
    value, or [undefined] when the request body has no [data] member. The
    members of an object are listed in property order. *)

#[local] Set Warnings "-register-all".

Inductive JsValue : Type :=
| JsUndefined
| JsNull
| JsBoolean (b : bool)
| JsNumber (n : Num)
| JsString (s : string)
| JsArray (elements : list JsValue)
| JsObject (properties : list (string * JsValue)).

Fixpoint join (separator : string) (l : list string) : string :=
  match l with
  | [] => ""
  | [s] => s
  | s :: rest => s ++ separator ++ join separator rest
  end.

(** [ToString], as applied by [+] to the right operand of a string. An array
    prints its elements separated by commas, [null] and [undefined] elements
    as nothing; an object parsed from JSON prints as ["[object Object]"]
    (objects that carry a member named [toString] or [valueOf] of their own
    are left out of the model). *)

Fixpoint ToString (v : JsValue) : string :=
  match v with
  | JsUndefined => "undefined"
  | JsNull => "null"
  | JsBoolean b => if b then "true" else "false"
  | JsNumber n => Num_toString n
  | JsString s => s
  | JsArray elements =>
      join "," (map (fun e => match e with
                              | JsUndefined | JsNull => ""
                              | _ => ToString e
                              end) elements)
  | JsObject _ => "[object Object]"
  end.

(** [JSON.stringify]. *)

Definition hex_digit (x : nat) : ascii :=
  nth x (list_ascii_of_string "0123456789abcdef") "0"%char.

Definition dquote : ascii := "034"%char.

Definition escape (c : ascii) : string :=
  if (c =? dquote)%char then String "\" (String dquote "")
  else if (c =? "\")%char then "\\"
  else if (c =? "008")%char then "\b"
  else if (c =? "009")%char then "\t"
  else if (c =? "010")%char then "\n"
  else if (c =? "012")%char then "\f"
  else if (c =? "013")%char then "\r"
  else if (nat_of_ascii c <? 32)%nat then
    "\u00" ++ String (hex_digit (nat_of_ascii c / 16)) (String (hex_digit (nat_of_ascii c mod 16)) "")
  else String c "".

Fixpoint escape_all (s : string) : string :=
  match s with
  | EmptyString => ""
  | String c rest => escape c ++ escape_all rest
  end.

Definition quote (s : string) : string :=
  String dquote (escape_all s ++ String dquote "").

(** [None] is the result [undefined]. *)
Fixpoint JSON_stringify (v : JsValue) : option string :=
  match v with
  | JsUndefined => None
  | JsNull => Some "null"
  | JsBoolean b => Some (if b then "true" else "false")
  | JsNumber n => Some (Num_toString n)
  | JsString s => Some (quote s)
  | JsArray elements =>
      Some ("[" ++ join "," (map (fun e => match JSON_stringify e with
                                           | Some s => s
                                           | None => "null"
                                           end) elements) ++ "]")
  | JsObject properties =>
      Some ("{" ++ join "," (flat_map (fun p => match p with
                                                | (k, e) =>
                                                    match JSON_stringify e with
                                                    | Some s => [quote k ++ ":" ++ s]
                                                    | None => []
                                                    end
                                                end) properties) ++ "}")
  end.

(** [!==] between two results of [JSON.stringify]. *)
Definition json_eqb (a b : option string) : bool :=
  match a, b with
  | Some x, Some y => (x =? y)%string
  | None, None => true
  | _, _ => false
  end.

(** A result of [JSON.stringify] appended to a string. *)
Definition shown (r : option string) : string :=
  match r with
  | Some s => s
  | None => "undefined"
  end.

(** ** Blocks *)

Record Block : Type := mkBlock {
  index : Z;
  previousHash : string;
  timestamp : Num;
  data : JsValue;
  hash : string
}.

(** A block as the object that [JSON.stringify] and [db.post] see: five
    members, in the order in which the constructor assigns them. *)
Definition Block_object (b : Block) : JsValue :=
  JsObject [("index", JsNumber (Num_of_Z (index b)));
            ("previousHash", JsString (previousHash b));
            ("timestamp", JsNumber (timestamp b));
            ("data", data b);
            ("hash", JsString (hash b))].

Definition calculateHash (index : Z) (previousHash : string) (timestamp : Num)
    (data : JsValue) : string :=
  CryptoJS.SHA512 (Num_toString (Num_of_Z index) ++ previousHash
                   ++ Num_toString timestamp ++ ToString data).

Definition calculateHashForBlock (block : Block) : string :=
  calculateHash (index block) (previousHash block) (timestamp block) (data block).

Definition getGenesisBlock : Block :=
  mkBlock 0 "0" (Num_of_Z 1465154705) (JsString "JSChain genesis block")
          "816534932c2b7154836da6afc367695e6337db8a921823784c14378abed4f7d7".

(** ** Effects

    A computation runs on a state, may write to it, and completes normally
    or by throwing. A rejected promise is a thrown completion as well: the
    executor of [generateNextBlock] runs synchronously and [.then] and
    [.catch] continue from its outcome. *)

Inductive Completion (A : Type) : Type :=
| Normal (value : A)
| Throw (message : string).

Arguments Normal {A} value.
Arguments Throw {A} message.

Definition Eff (S A : Type) : Type := S -> Completion A * S.

Definition ret {S A : Type} (a : A) : Eff S A := fun s => (Normal a, s).

Definition throw {S A : Type} (message : string) : Eff S A := fun s => (Throw message, s).

Definition bind {S A B : Type} (c : Eff S A) (k : A -> Eff S B) : Eff S B :=
  fun s => match c s with
           | (Normal a, s') => k a s'
           | (Throw message, s') => (Throw message, s')
           end.

Definition catch {S A : Type} (c : Eff S A) (handler : string -> Eff S A) : Eff S A :=
  fun s => match c s with
           | (Normal a, s') => (Normal a, s')
           | (Throw message, s') => handler message s'
           end.

Notation "x <- c ;; k" := (bind c (fun x => k))
  (at level 61, c at next level, right associativity).
Notation "c ;; k" := (bind c (fun _ => k))
  (at level 61, right associativity).

(** The lines written by [console.log], oldest first. *)
Definition Console : Type := list string.

Definition console_log (line : string) : Eff Console unit :=
  fun out => (Normal tt, (out ++ [line])%list).

(** ** The chain validator *)

Definition isValidNewBlock (newBlock previousBlock : Block) : Eff Console bool :=
  if negb (index previousBlock + 1 =? index newBlock) then
    console_log "invalid index" ;;
    ret false
  else if negb (hash previousBlock =? previousHash newBlock)%string then
    console_log "invalid previoushash" ;;
    ret false
  else if negb (calculateHashForBlock newBlock =? hash newBlock)%string then
    console_log ("string" ++ " " ++ "string") ;;
    console_log ("invalid hash: " ++ calculateHashForBlock newBlock ++ " " ++ hash newBlock) ;;
    ret false
  else
    ret true.

(** The [for] loop of [isValidChain], with [n] iterations left to run:
    [n = blockchainToValidate.length - i]. Reading a member of [undefined]
    throws. *)
Fixpoint isValidChain_for (blockchainToValidate : list Block) (n i : nat)
    (tempBlocks : list Block) : Eff Console bool :=
  match n with
  | O => ret true
  | S n' =>
      match nth_error blockchainToValidate i, nth_error tempBlocks (i - 1) with
      | Some newBlock, Some previousBlock =>
          valid <- isValidNewBlock newBlock previousBlock ;;
          if valid then
            isValidChain_for blockchainToValidate n' (i + 1) (tempBlocks ++ [newBlock])%list
          else
            ret false
      | _, _ => throw "Cannot read properties of undefined"
      end
  end.

Definition isValidChain (blockchainToValidate : list Block) : Eff Console bool :=
  match nth_error blockchainToValidate 0 with
  | None =>
      (* JSON.stringify(undefined) is undefined, which no string equals *)
      ret false
  | Some first =>
      if negb (json_eqb (JSON_stringify (Block_object first))
                        (JSON_stringify (Block_object getGenesisBlock)))
      then ret false
      else isValidChain_for blockchainToValidate
             (List.length blockchainToValidate - 1) 1 [first]
  end.

(** ** The ledger and the server *)

Record World : Type := mkWorld {
  blockchain : list Block;   (* the global [blockchain] *)
  db : list Block;           (* the documents of the PouchDB store *)
  console : Console
}.

Definition on_console {A : Type} (c : Eff Console A) : Eff World A :=
  fun w => let (r, out) := c (console w) in
           (r, mkWorld (blockchain w) (db w) out).

Definition get_blockchain : Eff World (list Block) :=
  fun w => (Normal (blockchain w), w).

Definition set_blockchain (blocks : list Block) : Eff World unit :=
  fun w => (Normal tt, mkWorld blocks (db w) (console w)).

(** [blockchain[blockchain.length - 1]]: [undefined] on the empty chain. *)
Definition getLatestBlock : Eff World (option Block) :=
  blocks <- get_blockchain ;;
  ret (match blocks with
       | [] => None
       | _ => nth_error blocks (List.length blocks - 1)
       end).

(** [now] is the reading of [new Date().getTime()], in milliseconds, so
    that [now / 1000] is the number of [now] thousandths. *)
Definition generateNextBlock (blockData : JsValue) (now : Z) : Eff World Block :=
  previousBlock <- getLatestBlock ;;
  match previousBlock with
  | None => throw "Cannot read properties of undefined (reading 'index')"
  | Some previousBlock =>
      let nextIndex := index previousBlock + 1 in
      let nextTimestamp := Thousandths now in
      let nextHash := calculateHash nextIndex (hash previousBlock) nextTimestamp blockData in
      ret (mkBlock nextIndex (hash previousBlock) nextTimestamp blockData nextHash)
  end.

Definition addBlock (newBlock : Block) : Eff World unit :=
  latest <- getLatestBlock ;;
  match latest with
  | None => throw "Cannot read properties of undefined (reading 'index')"
  | Some latest =>
      valid <- on_console (isValidNewBlock newBlock latest) ;;
      if valid then
        blocks <- get_blockchain ;;
        set_blockchain (blocks ++ [newBlock])%list
      else
        ret tt
  end.

Definition replaceChain (newBlocks : list Block) : Eff World JsValue :=
  valid <- on_console (isValidChain newBlocks) ;;
  blocks <- get_blockchain ;;
  if valid && (List.length blocks <? List.length newBlocks)%nat then
    on_console (console_log
      "Received blockchain is valid. Replacing current blockchain with received blockchain") ;;
    set_blockchain newBlocks ;;
    ret JsUndefined
  else
    on_console (console_log "Received blockchain invalid") ;;
    ret JsUndefined.

(** [db.post(block)] stores the document; the store acknowledges the write
    and the callback logs it. *)
Definition insertBlock (block : Block) : Eff World unit :=
  (fun w => (Normal tt, mkWorld (blockchain w) (db w ++ [block])%list (console w))) ;;
  on_console (console_log ("block added" ++ shown (JSON_stringify (Block_object block)))).

(** [db.find] with the selector [index >= 0]. *)
Definition db_find (documents : list Block) : list Block :=
  filter (fun doc => 0 <=? index doc) documents.

(** [startup], run on a store holding [documents]: [indexResult] is what
    [db.createIndex] reports and [http_port] the port taken from the
    environment. The world it leaves is the one the handlers run in. *)
Definition startup (documents : list Block) (indexResult http_port : string) : World :=
  mkWorld (db_find documents) documents
          ((if (indexResult =? "created")%string then ["index created"] else [])
           ++ (if (indexResult =? "exists")%string then ["index exists"] else [])
           ++ [("Listening http on port: " ++ http_port)%string])%list.

Record Response : Type := mkResponse {
  statusCode : Z;
  body : string
}.

Definition res_send (text : string) : Response := mkResponse 200 text.

Definition res_json (v : JsValue) : Response := mkResponse 200 (shown (JSON_stringify v)).

(** A handler answers with [Some] response, or leaves the request without
    one. *)

Definition get_root : Eff World (option Response) :=
  ret (Some (res_send "Welcome to JSChain")).

Definition get_blocks : Eff World (option Response) :=
  blocks <- get_blockchain ;;
  ret (Some (res_json (JsArray (map Block_object blocks)))).

(** The callback that [POST /mineBlock] passes to [.then]. *)
Definition mineBlock_then (result : Block) : Eff World (option Response) :=
  let newBlock := result in
  addBlock newBlock ;;
  insertBlock newBlock ;;
  on_console (console_log ("block added: " ++ shown (JSON_stringify (Block_object newBlock)))) ;;
  ret (Some (res_json (Block_object newBlock))).

Definition post_mineBlock (req_body_data : JsValue) (now : Z) : Eff World (option Response) :=
  catch (result <- generateNextBlock req_body_data now ;;
         mineBlock_then result)
        (fun message => on_console (console_log message) ;; ret None).

Definition post_generategenesis : Eff World (option Response) :=
  let genesisblock := getGenesisBlock in
  insertBlock genesisblock ;;
  ret (Some (res_json (Block_object genesisblock))).

(** ** The vocabulary of the properties *)

(** Every character of the string passes the test. *)
Fixpoint all_chars (p : ascii -> bool) (s : string) : bool :=
  match s with
  | EmptyString => true
  | String c rest => p c && all_chars p rest
  end.

(** The string is empty or starts with a character that fails the test. *)
Definition stops (p : ascii -> bool) (s : string) : Prop :=
  match s with
  | EmptyString => True
  | String c _ => p c = false
  end.

Definition is_digit (c : ascii) : bool :=
  (48 <=? nat_of_ascii c)%nat && (nat_of_ascii c <=? 57)%nat.

Definition numeric (c : ascii) : bool :=
  is_digit c || (c =? "-")%char || (c =? ".")%char.

Definition digit_value (c : ascii) : Z := Z.of_nat (nat_of_ascii c) - 48.

(** The fraction read back from its three (or fewer) digits. *)
Definition fraction_value (s : string) : Z :=
  match s with
  | String _ (String a (String b (String c _))) =>
      100 * digit_value a + 10 * digit_value b + digit_value c
  | String _ (String a (String b _)) => 100 * digit_value a + 10 * digit_value b
  | String _ (String a _) => 100 * digit_value a
  | _ => 0
  end.

Definition fraction_ok (k : nat) : bool :=
  let r := Z.of_nat k in
  (fraction_value (fraction r) =? r)
  && match fraction r with
     | EmptyString => true
     | String c rest => (c =? ".")%char && all_chars is_digit rest
     end.

Definition hex_value (c : ascii) : nat :=
  if (nat_of_ascii c <? 58)%nat then nat_of_ascii c - 48 else nat_of_ascii c - 87.

(** The first character that an escaped text stands for, and what follows
    it. *)
Definition unescape (s : string) : option (ascii * string) :=
  match s with
  | EmptyString => None
  | String c rest =>
      if (c =? "\")%char then
        match rest with
        | EmptyString => None
        | String x rest' =>
            if (x =? dquote)%char then Some (dquote, rest')
            else if (x =? "\")%char then Some ("\"%char, rest')
            else if (x =? "b")%char then Some ("008"%char, rest')
            else if (x =? "t")%char then Some ("009"%char, rest')
            else if (x =? "n")%char then Some ("010"%char, rest')
            else if (x =? "f")%char then Some ("012"%char, rest')
            else if (x =? "r")%char then Some ("013"%char, rest')
            else match rest' with
                 | String _ (String _ (String h (String l rest''))) =>
                     Some (ascii_of_nat (16 * hex_value h + hex_value l), rest'')
                 | _ => None
                 end
        end
      else Some (c, rest)
  end.

Definition Block_json (b : Block) : string :=
  "{" ++ quote "index" ++ ":" ++ Num_toString (Num_of_Z (index b))
  ++ "," ++ quote "previousHash" ++ ":" ++ quote (previousHash b)
  ++ "," ++ quote "timestamp" ++ ":" ++ Num_toString (timestamp b)
  ++ match JSON_stringify (data b) with
     | Some d => "," ++ quote "data" ++ ":" ++ d
     | None => ""
     end
  ++ "," ++ quote "hash" ++ ":" ++ quote (hash b) ++ "}".

(** The three conditions of a valid link, as [isValidNewBlock] tests them. *)
Definition linkb (newBlock previousBlock : Block) : bool :=
  (index previousBlock + 1 =? index newBlock)
  && (hash previousBlock =? previousHash newBlock)%string
  && (calculateHashForBlock newBlock =? hash newBlock)%string.

(** The link test at position [i] of a sequence. *)
Definition link_at (s : list Block) (i : nat) : bool :=
  match nth_error s i, nth_error s (i - 1) with
  | Some newBlock, Some previousBlock => linkb newBlock previousBlock
  | _, _ => false
  end.

(** What [isValidChain] computes. *)
Definition chainb (s : list Block) : bool :=
  match s with
  | [] => false
  | first :: _ =>
      (Block_json first =? Block_json getGenesisBlock)%string
      && forallb (link_at s) (seq 1 (List.length s - 1))
  end.

Definition replaced_line : string :=
  "Received blockchain is valid. Replacing current blockchain with received blockchain".

(** The block that [generateNextBlock] builds on [previousBlock]. *)
Definition nextBlock (previousBlock : Block) (blockData : JsValue) (now : Z) : Block :=
  mkBlock (index previousBlock + 1) (hash previousBlock) (Thousandths now) blockData
          (calculateHash (index previousBlock + 1) (hash previousBlock)
                         (Thousandths now) blockData).



Definition example_world : World := mkWorld [getGenesisBlock] [getGenesisBlock] [].


(** The text that [calculateHash] digests. *)
Definition hashed_text (index : Z) (previousHash : string) (timestamp : Num)
    (data : JsValue) : string :=
  Num_toString (Num_of_Z index) ++ previousHash ++ Num_toString timestamp ++ ToString data.


Definition with_previousHash (b : Block) (p : string) : Block :=
  mkBlock (index b) p (timestamp b) (data b) (hash b).




Definition hello_block : Block := nextBlock getGenesisBlock (JsString "hello") 1700000000123.

(** The routes of the express application. *)
Inductive Request : Type :=
| GET_root
| GET_blocks
| POST_mineBlock (req_body_data : JsValue) (now : Z)
| POST_generategenesis.

Definition handle (request : Request) : Eff World (option Response) :=
  match request with
  | GET_root => get_root
  | GET_blocks => get_blocks
  | POST_mineBlock req_body_data now => post_mineBlock req_body_data now
  | POST_generategenesis => post_generategenesis
  end.

(** Requests served one after another, with the answer to each. *)
Fixpoint serve (requests : list Request) : Eff World (list (option Response)) :=
  match requests with
  | [] => ret []
  | request :: rest =>
      answer <- handle request ;;
      answers <- serve rest ;;
      ret (answer :: answers)
  end.

(** The sequence [s] with the block at position [i] replaced by [b]. *)
Definition put (i : nat) (b : Block) (s : list Block) : list Block :=
  (firstn i s ++ b :: skipn (S i) s)%list.




Definition is_hex (c : ascii) : bool :=
  is_digit c || ((97 <=? nat_of_ascii c)%nat && (nat_of_ascii c <=? 102)%nat).

(** * Properties *)

(** ** Strings: printing that can be read back *)

Lemma append_assoc (a b c : string) : (a ++ b) ++ c = a ++ (b ++ c).
Proof. induction a as [|x a IH]; cbn; [reflexivity | now rewrite IH]. Qed.

Section Spans.

(** A class of characters. *)
Variable p : ascii -> bool.

Lemma all_chars_append (a b : string) :
  all_chars p (a ++ b) = all_chars p a && all_chars p b.
Proof.
  induction a as [|x a IH]; cbn; [reflexivity|].
  now rewrite IH, andb_assoc.
Qed.

(** A run of characters of the class, followed by something that is not
    of the class, is cut in one way only. *)
Lemma span_unique (s1 s2 t1 t2 : string) :
  all_chars p s1 = true -> all_chars p s2 = true ->
  stops p t1 -> stops p t2 ->
  s1 ++ t1 = s2 ++ t2 -> s1 = s2 /\ t1 = t2.
Proof.
  revert s2. induction s1 as [|c s1 IH]; intros [|c' s2] H1 H2 St1 St2 E; cbn in *.
  - auto.
  - subst t1. cbn in St1. apply andb_true_iff in H2. destruct H2; congruence.
  - subst t2. cbn in St2. apply andb_true_iff in H1. destruct H1; congruence.
  - injection E as -> E.
    apply andb_true_iff in H1, H2.
    destruct (IH s2) as [-> ->]; intuition.
Qed.

End Spans.

(** *** Numbers *)

Lemma uint_digits (d : Decimal.uint) : all_chars is_digit (NilEmpty.string_of_uint d) = true.
Proof. induction d; cbn; auto. Qed.

Lemma digits_all (z : Z) : all_chars is_digit (digits z) = true.
Proof.
  unfold digits, NilZero.string_of_uint.
  destruct (N.to_uint (Z.to_N z)) eqn:E; try reflexivity;
    rewrite <- E; apply uint_digits.
Qed.

Lemma digits_nonempty (z : Z) : exists c s, digits z = String c s /\ is_digit c = true.
Proof.
  pose proof (digits_all z) as H.
  unfold digits in *.
  destruct (Z.to_N z) as [|p]; cbn in *.
  - now exists "0"%char, "".
  - pose proof (Unsigned.to_uint_nonnil p) as Hn.
    destruct (Pos.to_uint p); try congruence; cbn in *; eexists _, _; split; reflexivity.
Qed.

Lemma digits_inj (a b : Z) : 0 <= a -> 0 <= b -> digits a = digits b -> a = b.
Proof.
  intros Ha Hb E. unfold digits in E.
  assert (Hnil : forall n, N.to_uint n <> Decimal.Nil).
  { intros [|p]; cbn; [discriminate | apply Unsigned.to_uint_nonnil]. }
  apply (f_equal NilZero.uint_of_string) in E.
  rewrite !NilZero.usu in E by apply Hnil.
  injection E as E. apply DecimalN.Unsigned.to_uint_inj in E. lia.
Qed.

Lemma fraction_table : forallb fraction_ok (seq 0 1000) = true.
Proof. vm_compute. reflexivity. Qed.

Lemma fraction_ok_all (r : Z) : 0 <= r < 1000 -> fraction_ok (Z.to_nat r) = true.
Proof.
  intros H. apply (proj1 (forallb_forall _ _) fraction_table).
  apply in_seq. lia.
Qed.

Lemma fraction_inj (r r' : Z) :
  0 <= r < 1000 -> 0 <= r' < 1000 -> fraction r = fraction r' -> r = r'.
Proof.
  intros H H' E.
  pose proof (fraction_ok_all r H) as A. pose proof (fraction_ok_all r' H') as A'.
  unfold fraction_ok in A, A'. rewrite !Z2Nat.id in A, A' by lia.
  apply andb_true_iff in A, A'. destruct A as [A _], A' as [A' _].
  apply Z.eqb_eq in A, A'. congruence.
Qed.

Lemma fraction_stops (r : Z) : 0 <= r < 1000 -> stops is_digit (fraction r).
Proof.
  intros H. pose proof (fraction_ok_all r H) as A.
  unfold fraction_ok in A. rewrite Z2Nat.id in A by lia.
  apply andb_true_iff in A. destruct A as [_ A].
  destruct (fraction r) as [|c rest]; cbn; [exact I|].
  apply andb_true_iff in A. destruct A as [A _].
  apply Ascii.eqb_eq in A. now subst c.
Qed.

Lemma all_chars_weaken (p q : ascii -> bool) (s : string) :
  (forall c, p c = true -> q c = true) ->
  all_chars p s = true -> all_chars q s = true.
Proof.
  intros W. induction s as [|c rest IH]; cbn; [reflexivity|].
  intros H. apply andb_true_iff in H. destruct H as [H1 H2].
  now rewrite (W c H1), IH.
Qed.

Lemma is_digit_numeric (c : ascii) : is_digit c = true -> numeric c = true.
Proof. unfold numeric. now intros ->. Qed.

Lemma fraction_numeric (r : Z) : 0 <= r < 1000 -> all_chars numeric (fraction r) = true.
Proof.
  intros H. pose proof (fraction_ok_all r H) as A.
  unfold fraction_ok in A. rewrite Z2Nat.id in A by lia.
  apply andb_true_iff in A. destruct A as [_ A].
  destruct (fraction r) as [|c rest]; [reflexivity|].
  apply andb_true_iff in A. destruct A as [A B].
  apply Ascii.eqb_eq in A. subst c.
  change (numeric "." && all_chars numeric rest = true).
  now rewrite (all_chars_weaken _ _ _ is_digit_numeric B).
Qed.

Lemma digits_numeric (z : Z) : all_chars numeric (digits z) = true.
Proof. exact (all_chars_weaken _ _ _ is_digit_numeric (digits_all z)). Qed.

(** [Num_toString] writes digits, a minus sign and a point only, and at
    least one character. *)
Lemma Num_toString_numeric (n : Num) : all_chars numeric (Num_toString n) = true.
Proof.
  unfold Num_toString.
  rewrite !all_chars_append, digits_numeric, fraction_numeric
    by (apply Z.mod_pos_bound; lia).
  now destruct (thousandths n <? 0).
Qed.

Lemma Num_toString_head (n : Num) :
  exists c s, Num_toString n = String c s /\ numeric c = true.
Proof.
  pose proof (Num_toString_numeric n) as H.
  unfold Num_toString in *.
  destruct (thousandths n <? 0).
  - now exists "-"%char, (digits (Z.abs (thousandths n) / 1000)
                          ++ fraction (Z.abs (thousandths n) mod 1000)).
  - destruct (digits_nonempty (Z.abs (thousandths n) / 1000)) as (c & s & E & Hc).
    rewrite E in *. cbn in *. eexists _, _. split; [reflexivity|].
    now apply andb_true_iff in H.
Qed.

(** Two numbers that print alike are the same number. *)
Lemma Num_toString_inj (a b : Num) : Num_toString a = Num_toString b -> a = b.
Proof.
  destruct a as [x], b as [y]. unfold Num_toString. cbn [thousandths].
  intros E.
  assert (Hx : 0 <= Z.abs x mod 1000 < 1000) by (apply Z.mod_pos_bound; lia).
  assert (Hy : 0 <= Z.abs y mod 1000 < 1000) by (apply Z.mod_pos_bound; lia).
  assert (Dx : 0 <= Z.abs x / 1000) by (apply Z.div_pos; lia).
  assert (Dy : 0 <= Z.abs y / 1000) by (apply Z.div_pos; lia).
  assert (Same : forall u v, 0 <= u -> 0 <= v ->
            digits (u / 1000) ++ fraction (u mod 1000)
            = digits (v / 1000) ++ fraction (v mod 1000) -> u = v).
  { intros u v Hu Hv F.
    apply (span_unique is_digit) in F;
      try apply digits_all; try (apply fraction_stops, Z.mod_pos_bound; lia).
    destruct F as [F1 F2].
    apply digits_inj in F1; try (apply Z.div_pos; lia).
    apply fraction_inj in F2; try (apply Z.mod_pos_bound; lia).
    rewrite (Z.div_mod u 1000), (Z.div_mod v 1000) by lia. congruence. }
  destruct (Z.ltb_spec x 0), (Z.ltb_spec y 0); cbn [append] in E.
  - injection E as E. apply Same in E; try lia. f_equal. lia.
  - destruct (digits_nonempty (Z.abs y / 1000)) as (c & s & F & Hc).
    rewrite F in E. cbn [append] in E. injection E as <- _. discriminate.
  - destruct (digits_nonempty (Z.abs x / 1000)) as (c & s & F & Hc).
    rewrite F in E. cbn [append] in E. injection E as -> _. discriminate.
  - apply Same in E; try lia. f_equal. lia.
Qed.

Lemma Num_of_Z_inj (a b : Z) : Num_of_Z a = Num_of_Z b -> a = b.
Proof.
  intros E. apply (f_equal thousandths) in E.
  unfold Num_of_Z in E. cbn [thousandths] in E. lia.
Qed.

(** *** Quoted strings *)

Lemma unescape_escape (c : ascii) (rest : string) :
  unescape (escape c ++ rest) = Some (c, rest).
Proof.
  destruct c as [[] [] [] [] [] [] [] []]; reflexivity.
Qed.

Lemma escape_no_dquote (c : ascii) (a b : string) : escape c ++ a <> String dquote b.
Proof.
  intros E. pose proof (unescape_escape c a) as U. rewrite E in U.
  cbn in U. injection U as <- _. discriminate.
Qed.

(** An escaped text is closed by the first quotation mark after it. *)
Lemma escape_all_inj (p q r r' : string) :
  escape_all p ++ String dquote r = escape_all q ++ String dquote r' ->
  p = q /\ r = r'.
Proof.
  revert q. induction p as [|c p IH]; intros [|c' q] E; cbn [escape_all append] in E.
  - injection E as ->. auto.
  - rewrite append_assoc in E. symmetry in E. now apply escape_no_dquote in E.
  - rewrite append_assoc in E. now apply escape_no_dquote in E.
  - rewrite !append_assoc in E.
    pose proof (f_equal unescape E) as U.
    rewrite !unescape_escape in U. injection U as -> U.
    destruct (IH q U) as [-> ->]. auto.
Qed.

Lemma quote_inj (p q r r' : string) :
  quote p ++ r = quote q ++ r' -> p = q /\ r = r'.
Proof.
  unfold quote. cbn [append]. intros [= E].
  rewrite !append_assoc in E. now apply escape_all_inj.
Qed.

(** *** The text of a block *)

Lemma JSON_stringify_Block (b : Block) :
  JSON_stringify (Block_object b) = Some (Block_json b).
Proof.
  unfold Block_object, Block_json.
  cbn [JSON_stringify flat_map app].
  destruct (JSON_stringify (data b)) as [d|]; cbn [app join];
    rewrite ?append_assoc; reflexivity.
Qed.

Lemma append_inv_head (s a b : string) : s ++ a = s ++ b -> a = b.
Proof. induction s as [|c s IH]; cbn; [auto | intros [= E]; auto]. Qed.

Lemma string_tail (c : ascii) (a b : string) : String c a = String c b -> a = b.
Proof. now intros [= E]. Qed.

(** A number is closed by the comma after it. *)
Lemma number_then_comma (n1 n2 : Num) (r1 r2 : string) :
  Num_toString n1 ++ String "," r1 = Num_toString n2 ++ String "," r2 ->
  n1 = n2 /\ r1 = r2.
Proof.
  intros E.
  destruct (span_unique numeric _ _ (String "," r1) (String "," r2)
              (Num_toString_numeric n1) (Num_toString_numeric n2) eq_refl eq_refl E)
    as [E1 E2].
  apply Num_toString_inj in E1. injection E2 as E2. auto.
Qed.

Lemma number_not_quoted (n : Num) (r s r' : string) :
  Num_toString n ++ r <> quote s ++ r'.
Proof.
  destruct (Num_toString_head n) as (c & t & F & Hc).
  rewrite F. unfold quote. cbn [append]. intros [= -> _]. discriminate Hc.
Qed.

#[local] Opaque quote.

(** Only the genesis block prints as the genesis block does. *)
Lemma Block_json_genesis (b : Block) :
  Block_json b = Block_json getGenesisBlock -> b = getGenesisBlock.
Proof.
  unfold Block_json. intros E.
  change (JSON_stringify (data getGenesisBlock))
    with (Some (quote "JSChain genesis block")) in E.
  cbn [append] in E.
  apply string_tail in E. apply append_inv_head in E. apply string_tail in E.
  apply number_then_comma in E. destruct E as [Ei E].
  apply Num_of_Z_inj in Ei.
  apply append_inv_head in E. apply string_tail in E.
  apply quote_inj in E. destruct E as [Ep E].
  apply string_tail in E. apply append_inv_head in E. apply string_tail in E.
  assert (R : timestamp b = timestamp getGenesisBlock /\
              data b = data getGenesisBlock /\
              hash b = hash getGenesisBlock).
  { destruct (JSON_stringify (data b)) as [d|] eqn:D; cbn [append] in E;
      apply number_then_comma in E; destruct E as [Et E].
    - rewrite !append_assoc in E. apply append_inv_head in E.
      cbn [append] in E. apply string_tail in E.
      destruct (data b) as [| |v|n|s|l|ps]; cbn [JSON_stringify] in D;
        try discriminate D; injection D as <-.
      + discriminate E.
      + destruct v; discriminate E.
      + now apply number_not_quoted in E.
      + apply quote_inj in E. destruct E as [-> E].
        apply string_tail in E. apply append_inv_head in E. apply string_tail in E.
        apply quote_inj in E. destruct E as [Eh _]. auto.
      + discriminate E.
      + discriminate E.
    - apply (f_equal (fun s => get 1 s)) in E. discriminate E. }
  destruct R as (Et & Ed & Eh).
  destruct b; cbn [index previousHash timestamp data hash] in *.
  subst. reflexivity.
Qed.

#[local] Transparent quote.

(** ** Link validation *)

Lemma linkb_true (newBlock previousBlock : Block) :
  linkb newBlock previousBlock = true <->
  index newBlock = index previousBlock + 1 /\
  previousHash newBlock = hash previousBlock /\
  calculateHash (index newBlock) (previousHash newBlock)
                (timestamp newBlock) (data newBlock) = hash newBlock.
Proof.
  unfold linkb, calculateHashForBlock.
  rewrite !andb_true_iff, Z.eqb_eq, !String.eqb_eq.
  intuition congruence.
Qed.

(** [isValidNewBlock] always returns, with the conjunction of the three
    tests, and only adds lines to the console. *)
Lemma isValidNewBlock_returns (newBlock previousBlock : Block) (out : Console) :
  exists lines,
    isValidNewBlock newBlock previousBlock out
    = (Normal (linkb newBlock previousBlock), (out ++ lines)%list).
Proof.
  unfold isValidNewBlock, linkb, bind, console_log, ret.
  destruct (index previousBlock + 1 =? index newBlock);
    [destruct (hash previousBlock =? previousHash newBlock)%string;
     [destruct (calculateHashForBlock newBlock =? hash newBlock)%string|]|];
    cbv beta iota delta [negb andb].
  - exists []. now rewrite app_nil_r.
  - eexists. rewrite <- app_assoc. reflexivity.
  - eexists. reflexivity.
  - eexists. reflexivity.
Qed.


(** ** Chain validation *)

Lemma firstn_snoc (s : list Block) (i : nat) (b : Block) :
  nth_error s i = Some b -> firstn (S i) s = (firstn i s ++ [b])%list.
Proof.
  revert i. induction s as [|x s IH]; intros [|i] H; cbn in *; try discriminate.
  - now injection H as ->.
  - now rewrite (IH i H).
Qed.

(** The loop never reads outside the two arrays: it returns, with the
    conjunction of the link tests that are left. *)
Lemma isValidChain_for_returns (s : list Block) (n i : nat) (out : Console) :
  (1 <= i)%nat -> (i + n = List.length s)%nat ->
  exists lines,
    isValidChain_for s n i (firstn i s) out
    = (Normal (forallb (link_at s) (seq i n)), (out ++ lines)%list).
Proof.
  revert i out. induction n as [|n IH]; intros i out Hi Hn.
  - exists []. cbn. now rewrite app_nil_r.
  - assert (Hb : nth_error s i <> None) by (apply nth_error_Some; lia).
    assert (Hp : nth_error s (i - 1) <> None) by (apply nth_error_Some; lia).
    destruct (nth_error s i) as [b|] eqn:Eb; [clear Hb | congruence].
    destruct (nth_error s (i - 1)) as [p|] eqn:Ep; [clear Hp | congruence].
    cbn [isValidChain_for seq forallb]. unfold link_at at 1.
    rewrite Eb, Ep, nth_error_firstn.
    replace (i - 1 <? i)%nat with true by (symmetry; apply Nat.ltb_lt; lia).
    rewrite Ep. unfold bind.
    destruct (isValidNewBlock_returns b p out) as [l1 ->].
    destruct (linkb b p).
    + replace (i + 1)%nat with (S i) by lia.
      rewrite <- (firstn_snoc s i b Eb).
      destruct (IH (S i) (out ++ l1)%list) as [l2 ->]; try lia.
      exists (l1 ++ l2)%list. now rewrite app_assoc.
    + exists l1. reflexivity.
Qed.

Lemma isValidChain_returns (s : list Block) (out : Console) :
  exists lines, isValidChain s out = (Normal (chainb s), (out ++ lines)%list).
Proof.
  unfold isValidChain, chainb.
  destruct s as [|first rest]; cbn [nth_error].
  - exists []. unfold ret. now rewrite app_nil_r.
  - rewrite !JSON_stringify_Block. cbn [json_eqb].
    destruct (Block_json first =? Block_json getGenesisBlock)%string; cbn [negb andb].
    + apply (isValidChain_for_returns (first :: rest) _ 1); cbn [List.length]; lia.
    + exists []. unfold ret. now rewrite app_nil_r.
Qed.

Lemma chainb_true (s : list Block) :
  chainb s = true <->
  s <> [] /\ nth_error s 0 = Some getGenesisBlock /\
  forall i, (1 <= i < List.length s)%nat ->
    exists candidate predecessor,
      nth_error s i = Some candidate /\ nth_error s (i - 1) = Some predecessor /\
      linkb candidate predecessor = true.
Proof.
  unfold chainb. destruct s as [|first rest].
  - split; [discriminate | intros [H _]; congruence].
  - rewrite andb_true_iff, String.eqb_eq, forallb_forall. split.
    + intros [G L]. apply Block_json_genesis in G. subst first.
      split; [discriminate | split; [reflexivity|]].
      intros i Hi. specialize (L i). unfold link_at in L.
      destruct (nth_error _ i) as [b|]; destruct (nth_error _ (i - 1)) as [p|];
        try (exists b, p; repeat split; apply L, in_seq; lia);
        (assert (false = true) by (apply L, in_seq; lia); discriminate).
    + intros (_ & G & L). cbn in G. injection G as ->. split; [reflexivity|].
      intros i Hi. apply in_seq in Hi.
      destruct (L i) as (b & p & Eb & Ep & Hl); [lia|].
      unfold link_at. now rewrite Eb, Ep.
Qed.


(** ** Replacement *)

(** What [replaceChain] does to the world, and what it returns. *)
Lemma replaceChain_returns (newBlocks : list Block) (w : World) :
  let accept := chainb newBlocks
                && (List.length (blockchain w) <? List.length newBlocks)%nat in
  exists lines,
    replaceChain newBlocks w
    = (Normal JsUndefined,
       mkWorld (if accept then newBlocks else blockchain w) (db w)
               ((console w ++ lines)
                ++ [if accept then replaced_line else "Received blockchain invalid"])%list).
Proof.
  intros accept. unfold replaceChain, bind, on_console, get_blockchain.
  destruct (isValidChain_returns newBlocks (console w)) as [lines ->].
  cbn [blockchain db console]. fold accept.
  exists lines. destruct accept; reflexivity.
Qed.

(** C3. [replaceChain] makes the candidate the chain exactly when
    [isValidChain] accepts the candidate and the candidate is strictly
    longer than the chain; in every other case the chain is what it was.
    The store is not touched either way. *)
Theorem replaceChain_policy (candidate : list Block) (w : World) :
  let accepted := fst (isValidChain candidate (console w)) = Normal true /\
                  (List.length (blockchain w) < List.length candidate)%nat in
  let w' := snd (replaceChain candidate w) in
  (accepted <-> blockchain w' = candidate /\ blockchain w' <> blockchain w)
  /\ (accepted \/ blockchain w' = blockchain w)
  /\ db w' = db w.
Proof.
  intros accepted w'. subst accepted w'.
  destruct (replaceChain_returns candidate w) as [lines ->].
  destruct (isValidChain_returns candidate (console w)) as [lines' ->].
  cbn [fst snd blockchain db].
  assert (Hneq : (List.length (blockchain w) < List.length candidate)%nat ->
                 candidate <> blockchain w).
  { intros L E. rewrite E in L. lia. }
  destruct (chainb candidate);
    destruct (Nat.ltb_spec (List.length (blockchain w)) (List.length candidate)) as [L|L];
    cbn [andb].
  - split; [split; auto | split; auto].
  - split; [split; intros [H1 H2]; [lia | congruence] | split; auto].
  - split; [split; intros [H1 H2]; [discriminate H1 | congruence] | split; auto].
  - split; [split; intros [H1 H2]; [discriminate H1 | congruence] | split; auto].
Qed.


(** ** Mining *)

Lemma getLatestBlock_snoc (init : list Block) (latest : Block) (w : World) :
  blockchain w = (init ++ [latest])%list ->
  getLatestBlock w = (Normal (Some latest), w).
Proof.
  intros E. unfold getLatestBlock, bind, get_blockchain, ret. rewrite E.
  rewrite nth_error_app2 by (rewrite length_app; cbn; lia).
  replace (List.length (init ++ [latest]) - 1 - List.length init)%nat with 0%nat
    by (rewrite length_app; cbn; lia).
  destruct init; reflexivity.
Qed.

Lemma getLatestBlock_empty (w : World) :
  blockchain w = [] -> getLatestBlock w = (Normal None, w).
Proof. intros E. unfold getLatestBlock, bind, get_blockchain, ret. now rewrite E. Qed.

Lemma generateNextBlock_returns (init : list Block) (latest : Block) (w : World)
    (blockData : JsValue) (now : Z) :
  blockchain w = (init ++ [latest])%list ->
  generateNextBlock blockData now w = (Normal (nextBlock latest blockData now), w).
Proof.
  intros E. unfold generateNextBlock, bind.
  now rewrite (getLatestBlock_snoc init latest w E).
Qed.

(** Link validity: a block built on [previousBlock] links to it. *)
Lemma linkb_nextBlock (previousBlock : Block) (blockData : JsValue) (now : Z) :
  linkb (nextBlock previousBlock blockData now) previousBlock = true.
Proof.
  unfold linkb, nextBlock, calculateHashForBlock.
  cbn [index previousHash timestamp data hash].
  now rewrite Z.eqb_refl, !String.eqb_refl.
Qed.

(** The continuation of [POST /mineBlock]: the block is appended when it
    links to the latest block; it is posted to the store and sent back in
    either case. *)
Lemma mineBlock_then_returns (init : list Block) (latest result : Block) (w : World) :
  blockchain w = (init ++ [latest])%list ->
  exists lines,
    mineBlock_then result w
    = (Normal (Some (res_json (Block_object result))),
       mkWorld (if linkb result latest then blockchain w ++ [result] else blockchain w)%list
               (db w ++ [result])%list
               (console w ++ lines)%list).
Proof.
  intros E. unfold mineBlock_then, addBlock, bind.
  rewrite (getLatestBlock_snoc init latest w E).
  unfold on_console at 1.
  destruct (isValidNewBlock_returns result latest (console w)) as [l1 ->].
  destruct (linkb result latest);
    unfold insertBlock, bind, on_console, console_log, get_blockchain, set_blockchain, ret;
    cbn [blockchain db console];
    eexists; rewrite <- !app_assoc; reflexivity.
Qed.

Lemma post_mineBlock_returns (init : list Block) (latest : Block) (w : World)
    (payload : JsValue) (now : Z) :
  blockchain w = (init ++ [latest])%list ->
  exists lines,
    post_mineBlock payload now w
    = (Normal (Some (res_json (Block_object (nextBlock latest payload now)))),
       mkWorld (blockchain w ++ [nextBlock latest payload now])%list
               (db w ++ [nextBlock latest payload now])%list
               (console w ++ lines)%list).
Proof.
  intros E. unfold post_mineBlock, catch, bind.
  rewrite (generateNextBlock_returns init latest w payload now E).
  destruct (mineBlock_then_returns init latest (nextBlock latest payload now) w E)
    as [lines ->].
  rewrite linkb_nextBlock. now exists lines.
Qed.

(** On the empty chain the promise is rejected: the message is logged and
    the request gets no response. *)
Lemma post_mineBlock_empty (w : World) (payload : JsValue) (now : Z) :
  blockchain w = [] ->
  post_mineBlock payload now w
  = (Normal None,
     mkWorld [] (db w)
             (console w ++ ["Cannot read properties of undefined (reading 'index')"])%list).
Proof.
  intros E. unfold post_mineBlock, catch, generateNextBlock, bind.
  rewrite (getLatestBlock_empty w E).
  unfold throw, on_console, console_log, ret. cbn. now rewrite E.
Qed.

(** A valid chain extended by a block that links to its last block is
    valid. *)
Lemma chainb_snoc (init : list Block) (latest b : Block) :
  chainb (init ++ [latest]) = true -> linkb b latest = true ->
  chainb ((init ++ [latest]) ++ [b]) = true.
Proof.
  rewrite !chainb_true. intros (_ & G & L) Hb.
  set (s := (init ++ [latest])%list) in *.
  assert (Hs : List.length s = S (List.length init))
    by (unfold s; rewrite length_app; cbn; lia).
  split; [now destruct s | split].
  - rewrite nth_error_app1 by lia. exact G.
  - intros i Hi. rewrite length_app in Hi. cbn in Hi.
    destruct (Nat.eq_dec i (List.length s)) as [->|Ne].
    + exists b, latest. split; [|split; [|exact Hb]].
      * rewrite nth_error_app2, Nat.sub_diag by lia. reflexivity.
      * rewrite nth_error_app1 by lia. unfold s.
        rewrite nth_error_app2 by (rewrite length_app; cbn; lia).
        replace (List.length (init ++ [latest]) - 1 - List.length init)%nat
          with 0%nat by (rewrite length_app; cbn; lia).
        reflexivity.
    + destruct (L i) as (c & p & Ec & Ep & Hl); [lia|].
      exists c, p. rewrite !nth_error_app1 by lia. auto.
Qed.




(** ** The handler of [POST /mineBlock] *)




(** A block that [POST /mineBlock] builds itself always passes validation:
    on a chain that is not empty the request appends the block, posts it and
    answers with it; on the empty chain nothing is built, appended or
    posted, and no response is sent. *)
Lemma post_mineBlock_outcome (payload : JsValue) (now : Z) (w : World) :
  let r := fst (post_mineBlock payload now w) in
  let w' := snd (post_mineBlock payload now w) in
  (blockchain w <> [] /\
   exists latest b,
     getLatestBlock w = (Normal (Some latest), w) /\
     b = nextBlock latest payload now /\
     (forall out, fst (isValidNewBlock b latest out) = Normal true) /\
     r = Normal (Some (res_json (Block_object b))) /\
     blockchain w' = (blockchain w ++ [b])%list /\
     db w' = (db w ++ [b])%list)
  \/ (blockchain w = [] /\ r = Normal None /\ blockchain w' = [] /\ db w' = db w).
Proof.
  intros r w'. subst r w'.
  destruct (blockchain w) as [|x l] eqn:E.
  - right. rewrite (post_mineBlock_empty w payload now E). cbn. auto.
  - left. split; [discriminate|].
    destruct (exists_last (l := x :: l)) as (init & latest & E'); [discriminate|].
    rewrite E' in E.
    exists latest, (nextBlock latest payload now).
    destruct (post_mineBlock_returns init latest w payload now E) as [lines ->].
    cbn [fst snd blockchain db]. rewrite E, E'.
    repeat split; auto.
    + apply (getLatestBlock_snoc init latest w). congruence.
    + intros out. destruct (isValidNewBlock_returns (nextBlock latest payload now) latest out)
        as [l' ->]. cbn. now rewrite linkb_nextBlock.
Qed.

(** ** Startup *)



(** ** Tampering *)

Lemma length_append (a b : string) :
  String.length (a ++ b) = (String.length a + String.length b)%nat.
Proof. induction a as [|c a IH]; cbn; [reflexivity | now rewrite IH]. Qed.


Lemma isValidNewBlock_fst (newBlock previousBlock : Block) (out : Console) :
  fst (isValidNewBlock newBlock previousBlock out) = Normal (linkb newBlock previousBlock).
Proof. now destruct (isValidNewBlock_returns newBlock previousBlock out) as [l ->]. Qed.




(** ** The genesis hash *)

(** C9. The digest recomputed over the index, previousHash, timestamp and
    data of the genesis block is not its [hash], which is a literal; in a
    chain that [isValidChain] accepts, the genesis block at position 0 is the
    one block whose [hash] is not the digest of its own fields. *)
Theorem genesis_hash_not_derived :
  calculateHash (index getGenesisBlock) (previousHash getGenesisBlock)
                (timestamp getGenesisBlock) (data getGenesisBlock)
  <> hash getGenesisBlock
  /\ forall (s : list Block) (out : Console),
       fst (isValidChain s out) = Normal true ->
       forall (i : nat) (b : Block),
         nth_error s i = Some b ->
         (calculateHashForBlock b = hash b <-> i <> 0%nat).
Proof.
  assert (G : calculateHashForBlock getGenesisBlock <> hash getGenesisBlock).
  { intros E. vm_compute in E. discriminate E. }
  split; [exact G|].
  intros s out V i b Eb.
  destruct (isValidChain_returns s out) as [lines R]. rewrite R in V.
  cbn [fst] in V. injection V as V. apply chainb_true in V.
  destruct V as (_ & V0 & L).
  destruct i as [|i].
  - rewrite V0 in Eb. injection Eb as <-. split; [intros E; now apply G in E | congruence].
  - split; [discriminate|]. intros _.
    destruct (L (S i)) as (c & p & Ec & _ & Hl).
    + split; [lia|]. apply nth_error_Some. congruence.
    + rewrite Eb in Ec. injection Ec as <-.
      apply linkb_true in Hl. apply Hl.
Qed.

Lemma genesis_hash_not_derived_witness :
  calculateHashForBlock hello_block = hash hello_block <-> 1%nat <> 0%nat.
Proof.
  apply (proj2 genesis_hash_not_derived [getGenesisBlock; hello_block] []).
  - vm_compute. reflexivity.
  - reflexivity.
Defined.

(** ** Concatenation without separators *)

(** C10. The text that [calculateHash] digests is the four fields written
    one after another, so it does not determine them: for every index and
    previousHash, timestamp 1 with data ["23"] and timestamp 12 with data
    ["3"] give the same text and the same digest, and [isValidNewBlock]
    returns the same for two blocks that differ in nothing else. *)
Theorem hashed_text_not_injective :
  exists (t1 t2 : Num) (d1 d2 : JsValue),
    (t1, d1) <> (t2, d2) /\ t1 <> t2 /\ d1 <> d2
    /\ forall (i : Z) (p : string),
         hashed_text i p t1 d1 = hashed_text i p t2 d2
         /\ calculateHash i p t1 d1 = calculateHash i p t2 d2
         /\ forall (h : string) (P : Block) (out : Console),
              fst (isValidNewBlock (mkBlock i p t1 d1 h) P out)
              = fst (isValidNewBlock (mkBlock i p t2 d2 h) P out).
Proof.
  exists (Num_of_Z 1), (Num_of_Z 12), (JsString "23"), (JsString "3").
  split; [discriminate | split; [discriminate | split; [discriminate|]]].
  intros i p.
  assert (E : hashed_text i p (Num_of_Z 1) (JsString "23")
              = hashed_text i p (Num_of_Z 12) (JsString "3")).
  { unfold hashed_text. apply f_equal. apply f_equal. reflexivity. }
  split; [exact E | split].
  - unfold calculateHash. now f_equal.
  - intros h P out. rewrite !isValidNewBlock_fst. apply f_equal.
    unfold linkb, calculateHashForBlock, calculateHash.
    cbn [index previousHash timestamp data hash].
    unfold hashed_text in E. now rewrite E.
Qed.

(** ** Scenarios *)


Example genesis_only_chain_valid :
  fst (isValidChain [getGenesisBlock] []) = Normal true.
Proof. vm_compute. reflexivity. Qed.

Example mine_hello :
  index hello_block = 1
  /\ previousHash hello_block = hash getGenesisBlock
  /\ fst (isValidNewBlock hello_block getGenesisBlock []) = Normal true.
Proof. vm_compute. repeat split. Qed.

Example altered_previousHash_rejected :
  let candidate := [getGenesisBlock; with_previousHash hello_block "0000"] in
  fst (isValidChain candidate []) = Normal false
  /\ blockchain (snd (replaceChain candidate example_world)) = [getGenesisBlock].
Proof. vm_compute. split; reflexivity. Qed.

Example genesis_hash_is_shorter :
  String.length (hash getGenesisBlock) = 64%nat
  /\ String.length (calculateHashForBlock getGenesisBlock) = 128%nat.
Proof. vm_compute. split; reflexivity. Qed.

(** * Further properties of the ledger and the server *)

(** ** The latest block and [addBlock] *)

(** [getLatestBlock] reads the chain and changes nothing: it returns
    [undefined] exactly on the empty chain, and otherwise the block at the
    end of the chain. *)
Theorem getLatestBlock_last (w : World) :
  snd (getLatestBlock w) = w
  /\ (fst (getLatestBlock w) = Normal None <-> blockchain w = [])
  /\ forall latest,
       fst (getLatestBlock w) = Normal (Some latest) <->
       exists init, blockchain w = (init ++ [latest])%list.
Proof.
  destruct (blockchain w) as [|x l] eqn:E.
  - rewrite (getLatestBlock_empty w E). cbn [fst snd].
    split; [reflexivity | split; [tauto|]].
    intros latest. split; [discriminate|].
    intros [init H]. now destruct init.
  - destruct (exists_last (l := x :: l)) as (init & latest & E'); [discriminate|].
    rewrite E' in E. rewrite (getLatestBlock_snoc init latest w E). cbn [fst snd].
    split; [reflexivity | split].
    + split; [discriminate | intros H; now destruct init].
    + intros b. split.
      * intros [= ->]. now exists init.
      * intros [init' H]. rewrite E' in H. apply app_inj_tail in H.
        destruct H as [_ ->]. reflexivity.
Qed.



(** On the empty chain [addBlock] throws (it reads [index] of [undefined])
    and changes nothing. *)
Theorem addBlock_empty_throws (newBlock : Block) (w : World) :
  blockchain w = [] ->
  (exists message, fst (addBlock newBlock w) = Throw message)
  /\ snd (addBlock newBlock w) = w.
Proof.
  intros E. unfold addBlock, bind. rewrite (getLatestBlock_empty w E).
  unfold throw. cbn [fst snd]. split; [eexists; reflexivity | reflexivity].
Qed.

Lemma addBlock_empty_throws_witness :
  (exists message, fst (addBlock hello_block (mkWorld [] [] [])) = Throw message)
  /\ snd (addBlock hello_block (mkWorld [] [] [])) = mkWorld [] [] [].
Proof.
  apply (addBlock_empty_throws hello_block (mkWorld [] [] [])). reflexivity.
Defined.

(** ** Building and mining *)



(** On the empty chain [POST /mineBlock] sends no response: the rejection
    is caught and logged, and neither the chain nor the store changes. *)
Theorem post_mineBlock_on_empty_chain (payload : JsValue) (now : Z) (w : World) :
  blockchain w = [] ->
  fst (post_mineBlock payload now w) = Normal None
  /\ blockchain (snd (post_mineBlock payload now w)) = []
  /\ db (snd (post_mineBlock payload now w)) = db w
  /\ exists line, console (snd (post_mineBlock payload now w)) = (console w ++ [line])%list.
Proof.
  intros E. rewrite (post_mineBlock_empty w payload now E). cbn [fst snd blockchain db console].
  repeat (split; [reflexivity|]). eexists. reflexivity.
Qed.

Lemma post_mineBlock_on_empty_chain_witness :
  fst (post_mineBlock JsNull 0 (startup [] "created" "3001")) = Normal None
  /\ blockchain (snd (post_mineBlock JsNull 0 (startup [] "created" "3001"))) = []
  /\ db (snd (post_mineBlock JsNull 0 (startup [] "created" "3001")))
     = db (startup [] "created" "3001")
  /\ exists line, console (snd (post_mineBlock JsNull 0 (startup [] "created" "3001")))
                  = (console (startup [] "created" "3001") ++ [line])%list.
Proof.
  apply (post_mineBlock_on_empty_chain JsNull 0 (startup [] "created" "3001")).
  reflexivity.
Defined.



(** [POST /generategenesis] posts the genesis block to the store and
    answers with its text, whatever the store already holds; it does not
    touch the chain, so on the empty chain a [POST /mineBlock] that follows
    it still gets no response. *)
Theorem post_generategenesis_store_only (w : World) :
  let w' := snd (post_generategenesis w) in
  fst (post_generategenesis w)
  = Normal (Some (mkResponse 200 (Block_json getGenesisBlock)))
  /\ db w' = (db w ++ [getGenesisBlock])%list
  /\ blockchain w' = blockchain w
  /\ forall payload now,
       blockchain w = [] -> fst (post_mineBlock payload now w') = Normal None.
Proof.
  intros w'. subst w'.
  unfold post_generategenesis, insertBlock, bind, on_console, console_log, ret, res_json.
  rewrite JSON_stringify_Block. cbn [fst snd blockchain db console shown].
  repeat (split; [reflexivity|]).
  intros payload now E.
  now rewrite post_mineBlock_empty.
Qed.

(** ** The shape of an accepted chain *)

Lemma accepted_chainb (s : list Block) (out : Console) :
  fst (isValidChain s out) = Normal true <-> chainb s = true.
Proof.
  destruct (isValidChain_returns s out) as [lines ->]. cbn [fst].
  split; [intros [= ->] | intros ->]; reflexivity.
Qed.

(** In a sequence that [isValidChain] accepts, the block at position [i]
    has index [i], and from position 1 on its [previousHash] is the hash of
    the block before it. *)
Theorem valid_chain_positions (s : list Block) (out : Console) :
  fst (isValidChain s out) = Normal true ->
  forall (i : nat) (b : Block),
    nth_error s i = Some b ->
    index b = Z.of_nat i
    /\ forall p, nth_error s (i - 1) = Some p -> (1 <= i)%nat -> previousHash b = hash p.
Proof.
  intros V. apply accepted_chainb, chainb_true in V. destruct V as (_ & G & L).
  assert (I : forall i b, nth_error s i = Some b -> index b = Z.of_nat i).
  { induction i as [|i IH]; intros b Eb.
    - rewrite G in Eb. now injection Eb as <-.
    - destruct (L (S i)) as (c & p & Ec & Ep & Hl).
      + split; [lia|]. apply nth_error_Some. congruence.
      + rewrite Eb in Ec. injection Ec as <-.
        replace (S i - 1)%nat with i in Ep by lia.
        apply linkb_true in Hl. destruct Hl as (Hi & _).
        rewrite Hi, (IH p Ep). lia. }
  intros i b Eb. split; [now apply I|].
  intros p Ep Hi.
  destruct (L i) as (c & p' & Ec & Ep' & Hl).
  - split; [exact Hi|]. apply nth_error_Some. congruence.
  - rewrite Eb in Ec. injection Ec as <-. rewrite Ep in Ep'. injection Ep' as <-.
    apply linkb_true in Hl. apply Hl.
Qed.

Lemma valid_chain_positions_witness :
  index hello_block = Z.of_nat 1
  /\ forall p, nth_error [getGenesisBlock; hello_block] (1 - 1) = Some p ->
               (1 <= 1)%nat -> previousHash hello_block = hash p.
Proof.
  apply (valid_chain_positions [getGenesisBlock; hello_block] []).
  - vm_compute. reflexivity.
  - reflexivity.
Defined.

Lemma chainb_snoc_inv (init : list Block) (latest b : Block) :
  chainb ((init ++ [latest]) ++ [b]) = true ->
  chainb (init ++ [latest]) = true /\ linkb b latest = true.
Proof.
  intros V. apply chainb_true in V. destruct V as (_ & G & L).
  set (s := (init ++ [latest])%list) in *.
  assert (Hs : List.length s = S (List.length init))
    by (unfold s; rewrite length_app; cbn; lia).
  split.
  - apply chainb_true. split; [now destruct s | split].
    + rewrite nth_error_app1 in G by lia. exact G.
    + intros i Hi. destruct (L i) as (c & p & Ec & Ep & Hl).
      { rewrite length_app. cbn. lia. }
      rewrite nth_error_app1 in Ec, Ep by lia. now exists c, p.
  - destruct (L (List.length s)) as (c & p & Ec & Ep & Hl).
    { rewrite length_app. cbn. lia. }
    rewrite nth_error_app2, Nat.sub_diag in Ec by lia. injection Ec as <-.
    rewrite nth_error_app1 in Ep by lia. unfold s in Ep.
    rewrite nth_error_app2 in Ep by (rewrite length_app; cbn; lia).
    replace (List.length (init ++ [latest]) - 1 - List.length init)%nat
      with 0%nat in Ep by (rewrite length_app; cbn; lia).
    injection Ep as <-. exact Hl.
Qed.

(** A sequence with one more block at its end is accepted exactly when
    the sequence is accepted and the new block passes [isValidNewBlock]
    against its last block. *)
Theorem isValidChain_snoc (init : list Block) (latest b : Block) (out : Console) :
  fst (isValidChain ((init ++ [latest]) ++ [b]) out) = Normal true <->
  fst (isValidChain (init ++ [latest]) out) = Normal true
  /\ fst (isValidNewBlock b latest out) = Normal true.
Proof.
  rewrite !accepted_chainb, isValidNewBlock_fst.
  split.
  - intros V. destruct (chainb_snoc_inv init latest b V) as [V' Hl].
    split; [exact V' | now rewrite Hl].
  - intros [V Hl]. apply chainb_snoc; [exact V | now injection Hl].
Qed.

(** Every prefix, of at least one block, of a sequence that [isValidChain]
    accepts is accepted. *)
Theorem isValidChain_prefix (s : list Block) (k : nat) (out : Console) :
  fst (isValidChain s out) = Normal true -> (1 <= k)%nat ->
  fst (isValidChain (firstn k s) out) = Normal true.
Proof.
  rewrite !accepted_chainb, !chainb_true. intros (N & G & L) Hk.
  split; [destruct s; [congruence | destruct k; [lia | discriminate]] | split].
  - rewrite nth_error_firstn.
    replace (0 <? k)%nat with true by (symmetry; apply Nat.ltb_lt; lia). exact G.
  - intros i Hi. rewrite length_firstn in Hi.
    destruct (L i) as (c & p & Ec & Ep & Hl); [lia|].
    exists c, p. rewrite !nth_error_firstn.
    replace (i <? k)%nat with true by (symmetry; apply Nat.ltb_lt; lia).
    replace (i - 1 <? k)%nat with true by (symmetry; apply Nat.ltb_lt; lia).
    auto.
Qed.

Lemma isValidChain_prefix_witness :
  fst (isValidChain (firstn 1 [getGenesisBlock; hello_block]) []) = Normal true.
Proof.
  apply (isValidChain_prefix [getGenesisBlock; hello_block] 1 []).
  - vm_compute. reflexivity.
  - lia.
Defined.

Lemma nth_error_put_same (s : list Block) (i : nat) (b b' : Block) :
  nth_error s i = Some b -> nth_error (put i b' s) i = Some b'.
Proof.
  intros E. unfold put.
  assert (Hi : (i < List.length s)%nat) by (apply nth_error_Some; congruence).
  rewrite nth_error_app2 by (rewrite length_firstn; lia).
  rewrite length_firstn. replace (i - Nat.min i (List.length s))%nat with 0%nat by lia.
  reflexivity.
Qed.

Lemma nth_error_put_before (s : list Block) (i j : nat) (b' : Block) :
  (j < i)%nat -> (i < List.length s)%nat -> nth_error (put i b' s) j = nth_error s j.
Proof.
  intros Hj Hi. unfold put.
  rewrite nth_error_app1 by (rewrite length_firstn; lia).
  rewrite nth_error_firstn.
  now replace (j <? i)%nat with true by (symmetry; apply Nat.ltb_lt; lia).
Qed.

Lemma length_put (s : list Block) (i : nat) (b b' : Block) :
  nth_error s i = Some b -> List.length (put i b' s) = List.length s.
Proof.
  intros E. unfold put.
  assert (Hi : (i < List.length s)%nat) by (apply nth_error_Some; congruence).
  rewrite length_app. cbn [List.length]. rewrite length_firstn, length_skipn. lia.
Qed.

(** Tamper evidence in a chain. In a sequence that [isValidChain] accepts,
    replacing the block at any position by one that has another index,
    another [previousHash] or another [hash], and the same timestamp and
    data, gives a sequence that [isValidChain] rejects; at position 0 every
    replacement by a different block is rejected. *)
Theorem tampered_chain_rejected (s : list Block) (i : nat) (b b' : Block) (out : Console) :
  fst (isValidChain s out) = Normal true ->
  nth_error s i = Some b ->
  (i = 0%nat /\ b' <> b) \/
  ((index b' <> index b \/ previousHash b' <> previousHash b \/ hash b' <> hash b)
   /\ timestamp b' = timestamp b /\ data b' = data b) ->
  fst (isValidChain (put i b' s) out) = Normal false.
Proof.
  intros V Eb D.
  destruct (isValidChain_returns (put i b' s) out) as [lines ->]. cbn [fst]. f_equal.
  destruct (chainb (put i b' s)) eqn:V'; [exfalso | reflexivity].
  apply accepted_chainb, chainb_true in V. destruct V as (_ & G & L).
  apply chainb_true in V'. destruct V' as (_ & G' & L').
  pose proof (nth_error_put_same s i b b' Eb) as Eb'.
  assert (Hi : (i < List.length s)%nat) by (apply nth_error_Some; congruence).
  destruct i as [|i].
  - rewrite Eb' in G'. rewrite Eb in G.
    injection G as ->. injection G' as ->.
    destruct D as [[_ D] | [[D | [D | D]] _]]; now apply D.
  - destruct D as [[D _] | (D & Dt & Dd)]; [discriminate|].
    destruct (L (S i)) as (c & p & Ec & Ep & Hl); [lia|].
    destruct (L' (S i)) as (c' & p' & Ec' & Ep' & Hl').
    { rewrite (length_put s (S i) b b' Eb). lia. }
    rewrite Eb in Ec. injection Ec as <-.
    rewrite Eb' in Ec'. injection Ec' as <-.
    rewrite nth_error_put_before in Ep' by lia.
    rewrite Ep in Ep'. injection Ep' as <-.
    apply linkb_true in Hl, Hl'.
    destruct Hl as (H1 & H2 & H3), Hl' as (H1' & H2' & H3').
    assert (Hh : hash b' = hash b).
    { rewrite <- H3, <- H3'. now rewrite H1, H1', H2, H2', Dt, Dd. }
    destruct D as [D | [D | D]]; apply D; congruence.
Qed.

Lemma tampered_chain_rejected_witness :
  fst (isValidChain (put 1 (with_previousHash hello_block "0")
                         [getGenesisBlock; hello_block]) []) = Normal false.
Proof.
  apply (tampered_chain_rejected [getGenesisBlock; hello_block] 1 hello_block).
  - vm_compute. reflexivity.
  - reflexivity.
  - right. split; [right; left; discriminate | split; reflexivity].
Defined.

(** ** Runs of the server *)

Lemma world_eta (w : World) : mkWorld (blockchain w) (db w) (console w) = w.
Proof. now destruct w. Qed.

Lemma chain_cases (w : World) :
  blockchain w = [] \/ exists init latest, blockchain w = (init ++ [latest])%list.
Proof.
  destruct (blockchain w) as [|x l]; [now left | right].
  destruct (exists_last (l := x :: l)) as (init & latest & E); [discriminate|].
  now exists init, latest.
Qed.

(** What a request does: it completes normally; the chain grows by nothing
    or by the block built on its latest block, the store and the console
    only grow. *)
Lemma handle_effect (request : Request) (w : World) :
  exists answer blocks docs lines,
    handle request w
    = (Normal answer,
       mkWorld (blockchain w ++ blocks) (db w ++ docs) (console w ++ lines))%list
    /\ (blocks = [] \/
        exists init latest payload now,
          blockchain w = (init ++ [latest])%list
          /\ blocks = [nextBlock latest payload now]
          /\ docs = blocks).
Proof.
  destruct request as [| |payload now|]; cbn [handle].
  - exists (Some (res_send "Welcome to JSChain")), [], [], [].
    unfold get_root, ret. rewrite !app_nil_r, world_eta. auto.
  - eexists _, [], [], []. unfold get_blocks, bind, get_blockchain, ret.
    rewrite !app_nil_r, world_eta. split; [reflexivity | auto].
  - destruct (chain_cases w) as [E | (init & latest & E)].
    + rewrite (post_mineBlock_empty w payload now E).
      exists None, [], [], ["Cannot read properties of undefined (reading 'index')"].
      rewrite E, !app_nil_r. split; [reflexivity | auto].
    + destruct (post_mineBlock_returns init latest w payload now E) as [lines ->].
      eexists _, [nextBlock latest payload now], [nextBlock latest payload now], lines.
      split; [reflexivity|]. right. exists init, latest, payload, now. auto.
  - unfold post_generategenesis, insertBlock, bind, on_console, console_log, ret.
    cbn [blockchain db console].
    eexists _, [], [getGenesisBlock], [_].
    rewrite app_nil_r. split; [reflexivity | auto].
Qed.

Lemma serve_effect (requests : list Request) (w : World) :
  exists answers blocks docs lines,
    serve requests w
    = (Normal answers,
       mkWorld (blockchain w ++ blocks) (db w ++ docs) (console w ++ lines))%list
    /\ List.length answers = List.length requests.
Proof.
  revert w. induction requests as [|request rest IH]; intros w.
  - exists [], [], [], []. cbn. rewrite !app_nil_r, world_eta. auto.
  - cbn [serve]. unfold bind.
    destruct (handle_effect request w) as (a & b1 & d1 & l1 & -> & _).
    destruct (IH (mkWorld (blockchain w ++ b1) (db w ++ d1) (console w ++ l1))%list)
      as (answers & b2 & d2 & l2 & -> & Len).
    cbn [blockchain db console]. unfold ret.
    exists (a :: answers), (b1 ++ b2)%list, (d1 ++ d2)%list, (l1 ++ l2)%list.
    rewrite !app_assoc. cbn [List.length]. auto.
Qed.

(** Whatever the requests and the world they arrive in, the server answers
    each of them without an uncaught exception, and the chain, the store
    and the console afterwards extend what they were: no request removes or
    rewrites a block. *)
Theorem serve_only_appends (requests : list Request) (w : World) :
  exists answers blocks docs lines,
    serve requests w
    = (Normal answers,
       mkWorld (blockchain w ++ blocks) (db w ++ docs) (console w ++ lines))%list
    /\ List.length answers = List.length requests.
Proof. exact (serve_effect requests w). Qed.

(** No run of requests changes what [isValidChain] says of the chain: a
    chain that is accepted stays accepted, and one that is rejected (as a
    store may hand over at startup) stays rejected. *)
Theorem serve_keeps_validity (requests : list Request) (w : World) (out : Console) :
  fst (isValidChain (blockchain (snd (serve requests w))) out)
  = fst (isValidChain (blockchain w) out).
Proof.
  assert (Q : forall s, fst (isValidChain s out) = Normal (chainb s)).
  { intros s. now destruct (isValidChain_returns s out) as [l ->]. }
  rewrite !Q. f_equal.
  revert w. induction requests as [|request rest IH]; intros w; [reflexivity|].
  cbn [serve]. unfold bind.
  destruct (handle_effect request w) as (a & b1 & d1 & l1 & E & Hb). rewrite E.
  set (w1 := mkWorld _ _ _) in *.
  specialize (IH w1).
  destruct (serve rest w1) as [[answers|message] w2] eqn:Es; cbn [snd] in *.
  - unfold ret. cbn [snd]. rewrite IH. unfold w1. cbn [blockchain].
    destruct Hb as [-> | (init & latest & payload & now & Ec & -> & _)].
    + now rewrite app_nil_r.
    + rewrite Ec.
      destruct (chainb (init ++ [latest])) eqn:V.
      * apply chainb_snoc; [exact V | apply linkb_nextBlock].
      * destruct (chainb ((init ++ [latest]) ++ [nextBlock latest payload now])) eqn:V';
          [|reflexivity].
        destruct (chainb_snoc_inv init latest _ V') as [S' _]. congruence.
  - destruct (serve_effect rest w1) as (answers & b & d & l & F & _).
    rewrite F in Es. discriminate Es.
Qed.


(** ** Replacement, again *)

(** [replaceChain] never shortens the chain, keeps a chain that
    [isValidChain] accepts accepted, and does nothing to the chain when it
    is called a second time with the same candidate. *)
Theorem replaceChain_monotone (candidate : list Block) (w : World) (out : Console) :
  let w' := snd (replaceChain candidate w) in
  (List.length (blockchain w) <= List.length (blockchain w'))%nat
  /\ (fst (isValidChain (blockchain w) out) = Normal true ->
      fst (isValidChain (blockchain w') out) = Normal true)
  /\ blockchain (snd (replaceChain candidate w')) = blockchain w'.
Proof.
  intros w'. subst w'.
  destruct (replaceChain_returns candidate w) as [lines E]. rewrite E.
  cbn [snd blockchain].
  set (w1 := mkWorld _ _ _).
  destruct (replaceChain_returns candidate w1) as [lines' ->].
  unfold w1 at 1 2. cbn [snd blockchain].
  rewrite !accepted_chainb.
  destruct (chainb candidate) eqn:V; cbn [andb];
    destruct (Nat.ltb_spec (List.length (blockchain w)) (List.length candidate)) as [L|L].
  - rewrite Nat.ltb_irrefl. split; [lia | split; [intros _; exact V | reflexivity]].
  - destruct (Nat.ltb_spec (List.length (blockchain w)) (List.length candidate));
      [lia|]. split; [lia | split; [auto | reflexivity]].
  - split; [lia | split; [auto | reflexivity]].
  - split; [lia | split; [auto | reflexivity]].
Qed.

(** ** Hashes *)

Lemma hex_length (n : nat) (x : Z) : String.length (CryptoJS.hex n x) = n.
Proof.
  revert x. induction n as [|n IH]; intros x; cbn [CryptoJS.hex]; [reflexivity|].
  rewrite length_append, IH. cbn. lia.
Qed.

Lemma hex_digit_is_hex (x : Z) : is_hex (CryptoJS.hex_digit (Z.land x 0xf)) = true.
Proof.
  change 0xf with (Z.ones 4). rewrite Z.land_ones by lia.
  assert (H : 0 <= x mod 2 ^ 4 < 16) by (apply Z.mod_pos_bound; lia).
  unfold CryptoJS.hex_digit.
  assert (N : (Z.to_nat (x mod 2 ^ 4) < 16)%nat) by lia.
  revert N. generalize (Z.to_nat (x mod 2 ^ 4)). intros k N.
  do 16 (destruct k as [|k]; [reflexivity|]). lia.
Qed.

Lemma hex_is_hex (n : nat) (x : Z) : all_chars is_hex (CryptoJS.hex n x) = true.
Proof.
  revert x. induction n as [|n IH]; intros x; cbn [CryptoJS.hex]; [reflexivity|].
  rewrite all_chars_append, IH. cbn [all_chars]. now rewrite hex_digit_is_hex.
Qed.

(** Every hash that [calculateHash] returns is a string of 128 lower-case
    hexadecimal digits, so a block whose [hash] is anything else (the
    genesis block's has 64) passes [isValidNewBlock] against no block. *)
Theorem calculateHash_shape (index : Z) (previousHash : string) (timestamp : Num)
    (data : JsValue) :
  String.length (calculateHash index previousHash timestamp data) = 128%nat
  /\ all_chars is_hex (calculateHash index previousHash timestamp data) = true
  /\ forall (B P : Block) (out : Console),
       fst (isValidNewBlock B P out) = Normal true ->
       String.length (hash B) = 128%nat /\ all_chars is_hex (hash B) = true.
Proof.
  assert (S : forall s, String.length (CryptoJS.SHA512 s) = 128%nat
                        /\ all_chars is_hex (CryptoJS.SHA512 s) = true).
  { intros s. unfold CryptoJS.SHA512. cbv zeta.
    rewrite !length_append, !hex_length, !all_chars_append, !hex_is_hex.
    split; reflexivity. }
  unfold calculateHash at 1 2.
  split; [apply S | split; [apply S|]].
  intros B P out V. rewrite isValidNewBlock_fst in V. injection V as V.
  apply linkb_true in V. destruct V as (_ & _ & <-). apply S.
Qed.

(** ** Restart *)




(** ** Diagnostics *)







